(** * The allocation hooks of [fuzzers/libfuzzer_libmozjpeg/hook_allocs.c]

    The C file interposes [malloc] and [calloc].  Each hook hashes the
    return address of its caller into a slot of the global array
    [libafl_alloc_map], raises that slot to the requested size, and then
    serves the request with [posix_memalign] at alignment [1<<6];
    [calloc] additionally runs [memset] over the result.

    Embedding:
    - [size_t] and [uintptr_t] values are [Z] in [0, 2^size_bits), the
      wrap-around of [<<] and [*] is written out with [wrap];
    - [libafl_alloc_map] is a [list Z] read and written by index;
    - the C heap is a [gmap Z Z] from mapped byte addresses to byte values;
    - [posix_memalign] belongs to the C library, not to this file: it is an
      operation of the [Platform] class, its contract is [PlatformSpec];
    - a hook either returns or the process dies in [memset]: [outcome]. *)

From stdpp Require Import base numbers option list gmap.

Local Open Scope Z_scope.

(** ** Memory *)

(** Mapped bytes of the process: address to byte value.  An address that is
    absent is not accessible; touching it is a fault. *)
Abbreviation heap := (gmap Z Z).

(** The platform the hooks are compiled for: the width of [size_t] and
    [uintptr_t], and the aligned allocation primitive called at lines 33 and
    48 (on Windows the macro at line 8 provides it from [_aligned_malloc]).
    [posix_memalign a h alignment size] yields the address stored through
    the first argument of the C function, the allocator's next state and the
    heap.  [None] is a failed request: the caller's variable, [NULL] before
    the call, is [NULL] after it (nothing is stored, or line 8 stores the
    [NULL] of [_aligned_malloc]).  The [int] that the C function returns is
    dropped by both hooks and is not modelled. *)
Class Platform (A : Type) := {
  size_bits : N;
  posix_memalign : A → heap → Z → Z → option Z * A * heap
}.

(** What the C library promises about a request that succeeds or fails. *)
Class PlatformSpec (A : Type) `{Platform A} : Prop := {
  memalign_aligned a h al sz p a' h' :
    posix_memalign a h al sz = (Some p, a', h') → 0 < al → p `mod` al = 0;
  memalign_nonnull a h al sz p a' h' :
    posix_memalign a h al sz = (Some p, a', h') → p ≠ 0;
  memalign_region a h al sz p a' h' :
    posix_memalign a h al sz = (Some p, a', h') →
    ∀ i, 0 ≤ i < sz → is_Some (h' !! (p + i));
  memalign_frame a h al sz p a' h' :
    posix_memalign a h al sz = (Some p, a', h') →
    ∀ x, ¬ (p ≤ x < p + sz) → h' !! x = h !! x;
  memalign_failed a h al sz a' h' :
    posix_memalign a h al sz = (None, a', h') → h' = h
}.

(** [memset]'s store of one byte: a fault unless the address is mapped. *)
Definition store_byte (h : heap) (x b : Z) : option heap :=
  match h !! x with
  | Some _ => Some (<[x := b]> h)
  | None => None
  end.

Fixpoint memset_from (h : heap) (x b : Z) (n : nat) : option heap :=
  match n with
  | O => Some h
  | S n' =>
      match store_byte h x b with
      | Some h' => memset_from h' (x + 1) b n'
      | None => None
      end
  end.

(** [memset(s, c, n)]: [c] converted to [unsigned char] is stored into each
    of the [n] bytes from [s] on; [None] is a fault.  With [n = 0] no byte
    is touched, whatever [s] is. *)
Definition memset (h : heap) (s c n : Z) : option heap :=
  memset_from h s (c `mod` 256) (Z.to_nat n).

(** ** The hooks *)

(** Line 5. *)
Definition MAP_SIZE : Z := 16 * 1024.

(** Lines 11-18, at type [size_t]. *)
Definition MAX (a b : Z) : Z := if a >? b then a else b.

(** Process state: the global of line 20, the allocator and the heap. *)
Record state (A : Type) := State {
  libafl_alloc_map : list Z;
  allocator : A;
  memory : heap
}.
Arguments State {A} _ _ _.
Arguments libafl_alloc_map {A} _.
Arguments allocator {A} _.
Arguments memory {A} _.

(** A hook returns a pointer (0 is [NULL]), or the process dies of a fault
    inside [memset]; [Crashed] carries the array as it was left and the heap
    as it was when [memset] was entered. *)
Inductive outcome (A : Type) :=
  | Returned (ret : Z) (st : state A)
  | Crashed (st : state A).
Arguments Returned {A} _ _.
Arguments Crashed {A} _.

Definition final {A} (o : outcome A) : state A :=
  match o with Returned _ st => st | Crashed st => st end.

Definition result {A} (o : outcome A) : option Z :=
  match o with Returned r _ => Some r | Crashed _ => None end.

Section Hooks.
Context {A : Type} `{Platform A}.

(** Reduction of an arithmetic result to [size_bits] bits. *)
Definition wrap (x : Z) : Z := x `mod` 2 ^ Z.of_N size_bits.

(** Lines 25-26 (and 43-44): the slot of a return address. *)
Definition hash (k : Z) : Z :=
  let k := Z.lxor (Z.shiftr k 4) (wrap (Z.shiftl k 8)) in
  Z.land k (MAP_SIZE - 1).

(** Line 27 (and 45): [libafl_alloc_map[k] = MAX(libafl_alloc_map[k], size)]. *)
Definition feedback (m : list Z) (k size : Z) : list Z :=
  <[Z.to_nat k := MAX (m !!! Z.to_nat k) size]> m.

(** Lines 22-36; [ra] is [__builtin_return_address(0)]. *)
Definition malloc (st : state A) (ra size : Z) : outcome A :=
  let k := hash ra in
  let m := feedback (libafl_alloc_map st) k size in
  let '(stored, a, h) :=
    posix_memalign (allocator st) (memory st) (Z.shiftl 1 6) size in
  let ret := default 0 stored in
  Returned ret (State m a h).

(** Lines 38-52. *)
Definition calloc (st : state A) (ra nmemb size : Z) : outcome A :=
  let size := wrap (size * nmemb) in
  let k := hash ra in
  let m := feedback (libafl_alloc_map st) k size in
  let '(stored, a, h) :=
    posix_memalign (allocator st) (memory st) (Z.shiftl 1 6) size in
  let ret := default 0 stored in
  match memset h ret 0 size with
  | Some h' => Returned ret (State m a h')
  | None => Crashed (State m a h)
  end.

End Hooks.
Arguments wrap A {_} x.
Arguments hash A {_} k.

(** ** Sequences of calls *)

(** One call made by the program under test, with the return address the
    hook reads. *)
Inductive call :=
  | Malloc (ra size : Z)
  | Calloc (ra nmemb size : Z).

Definition call_site (c : call) : Z :=
  match c with Malloc ra _ => ra | Calloc ra _ _ => ra end.

Section Runs.
Context {A : Type} `{Platform A}.

(** The byte count a call hands to line 27 or 45. *)
Definition requested (c : call) : Z :=
  match c with
  | Malloc _ size => size
  | Calloc _ nmemb size => wrap A (size * nmemb)
  end.

Definition invoke (st : state A) (c : call) : outcome A :=
  match c with
  | Malloc ra size => malloc st ra size
  | Calloc ra nmemb size => calloc st ra nmemb size
  end.

(** The calls are made in order until one of them kills the process.
    Yields the calls that were entered and the state at the end. *)
Fixpoint run (st : state A) (cs : list call) : list call * state A :=
  match cs with
  | [] => ([], st)
  | c :: cs' =>
      match invoke st c with
      | Returned _ st' =>
          let '(entered, st'') := run st' cs' in (c :: entered, st'')
      | Crashed st' => ([c], st')
      end
  end.

(** The largest byte count among the calls of [cs] whose call site falls
    into slot [k]; 0 when there is none. *)
Definition observed_max (k : Z) (cs : list call) : Z :=
  foldr Z.max 0 (requested <$> filter (λ c, hash A (call_site c) = k) cs).

End Runs.
Arguments requested A {_} c.
Arguments observed_max A {_} k cs.

(** ** A platform to run the hooks on

    A bump allocator over the addresses from [ARENA_BASE] on.  Every block
    takes at least one byte, so that distinct requests get distinct
    addresses, and fresh bytes hold the pattern [0xCD]. *)

Record arena := Arena { used : N; capacity : N }.

Definition ARENA_BASE : Z := 4096.

Definition round_up (x al : Z) : Z := (x + al - 1) `div` al * al.

Definition fill (h : heap) (xs : list Z) (b : Z) : heap :=
  foldr (λ x acc, <[x := b]> acc) h xs.

Definition arena_memalign (a : arena) (h : heap) (al sz : Z)
    : option Z * arena * heap :=
  let p := round_up (ARENA_BASE + Z.of_N (used a)) al in
  let e := p + Z.max sz 1 in
  if decide (0 < al ∧ 0 ≤ sz ∧ e ≤ ARENA_BASE + Z.of_N (capacity a)) then
    (Some p, Arena (Z.to_N (e - ARENA_BASE)) (capacity a),
     fill h (seqZ p sz) 205)
  else (None, a, h).

#[export] Instance arena_platform : Platform arena :=
  {| size_bits := 64; posix_memalign := arena_memalign |}.

(** The process at start: the array is zero-initialised. *)
Definition initial {A} (a : A) (h : heap) : state A :=
  State (replicate (Z.to_nat MAP_SIZE) 0) a h.

(** Three processes on the arena platform: with a page of free memory, with
    nothing left, and with 64 bytes left; and a return address. *)
Definition roomy : state arena := initial (Arena 0 4096) ∅.
Definition exhausted : state arena := initial (Arena 0 0) ∅.
Definition tight : state arena := initial (Arena 0 64) ∅.
Definition caller : Z := 4198964.

(** ** The Windows build

    Under [_WIN32] line 8 replaces [posix_memalign] by a macro over
    [_aligned_malloc], which belongs to the C runtime.
    [_aligned_malloc a h size alignment] yields the pointer (0 is [NULL]),
    the allocator's next state and the heap; [errno] is read after it. *)
Class Win32 (W : Type) := {
  pointer_bits : N;
  _aligned_malloc : W → heap → Z → Z → Z * W * heap;
  errno : W → Z
}.

(** What the C runtime promises about [_aligned_malloc]. *)
Class Win32Spec (W : Type) `{Win32 W} : Prop := {
  aligned_malloc_aligned w h sz al p w' h' :
    _aligned_malloc w h sz al = (p, w', h') → 0 < al → p `mod` al = 0;
  aligned_malloc_region w h sz al p w' h' :
    _aligned_malloc w h sz al = (p, w', h') → p ≠ 0 →
    ∀ i, 0 ≤ i < sz → is_Some (h' !! (p + i));
  aligned_malloc_frame w h sz al p w' h' :
    _aligned_malloc w h sz al = (p, w', h') → p ≠ 0 →
    ∀ x, ¬ (p ≤ x < p + sz) → h' !! x = h !! x;
  aligned_malloc_failed w h sz al w' h' :
    _aligned_malloc w h sz al = (0, w', h') → h' = h
}.

(** Line 8: the macro stores [_aligned_malloc(s, a)] through [p] and
    evaluates to 0 when what it stored is not [NULL], to [errno] otherwise.
    Yields the value of the expression, the pointer stored, the allocator
    and the heap. *)
Definition win32_posix_memalign `{Win32 W} (w : W) (h : heap) (a s : Z)
    : Z * Z * W * heap :=
  let '(p, w', h') := _aligned_malloc w h s a in
  (if p =? 0 then errno w' else 0, p, w', h').

(** The platform of the hooks compiled under [_WIN32]: the macro is the
    primitive; the value of the expression is dropped at lines 33 and 48. *)
Definition win32_platform `{Win32 W} : Platform W :=
  {| size_bits := pointer_bits;
     posix_memalign w h a s :=
       let '(_, p, w', h') := win32_posix_memalign w h a s in
       (if p =? 0 then None else Some p, w', h') |}.

(** The arena behind [_aligned_malloc]; [errno] is [ENOMEM]. *)
Record win_arena := WinArena { win_heap : arena }.

#[export] Instance win_arena_win32 : Win32 win_arena :=
  {| pointer_bits := 64;
     _aligned_malloc w h s a :=
       let '(r, ar, h') := arena_memalign (win_heap w) h a s in
       (default 0 r, WinArena ar, h');
     errno _ := 12 |}.

Definition win_roomy : state win_arena := initial (WinArena (Arena 0 4096)) ∅.

(** ** Facts about the memory operations *)

Lemma fill_lookup_in (h : heap) xs b x :
  x ∈ xs → fill h xs b !! x = Some b.
Proof.
  induction xs as [|y ys IH]; simpl; [by intros ?%elem_of_nil|].
  intros [->|Hin]%elem_of_cons.
  - apply lookup_insert_eq.
  - destruct (decide (y = x)) as [->|Hne].
    + apply lookup_insert_eq.
    + rewrite lookup_insert_ne; auto.
Qed.

Lemma fill_lookup_out (h : heap) xs b x :
  x ∉ xs → fill h xs b !! x = h !! x.
Proof.
  induction xs as [|y ys IH]; simpl; [done|].
  intros [Hne Hout]%not_elem_of_cons.
  rewrite lookup_insert_ne; auto.
Qed.

Lemma round_up_multiple x al : 0 < al → round_up x al `mod` al = 0.
Proof. intros. unfold round_up. apply Z.mod_mul. lia. Qed.

Lemma round_up_ge x al : 0 < al → x ≤ round_up x al.
Proof.
  intros Hal. unfold round_up.
  pose proof (Z.mul_div_le (x + al - 1) al Hal).
  pose proof (Z.mod_pos_bound (x + al - 1) al Hal).
  pose proof (Z.div_mod (x + al - 1) al ltac:(lia)).
  lia.
Qed.

#[export] Instance arena_spec : PlatformSpec arena.
Proof.
  split; simpl; unfold arena_memalign; intros a h al sz.
  - intros p a' h'. case_decide; [|done].
    intros [= <- _ _] Hal. by apply round_up_multiple.
  - intros p a' h'. case_decide as Hd; [|done].
    intros [= <- _ _]. destruct Hd as (Hal & _ & _).
    pose proof (round_up_ge (ARENA_BASE + Z.of_N (used a)) al Hal).
    unfold ARENA_BASE in *. lia.
  - intros p a' h'. case_decide; [|done].
    intros [= <- _ <-] i Hi. rewrite fill_lookup_in; [eauto|].
    apply elem_of_seqZ. lia.
  - intros p a' h'. case_decide; [|done].
    intros [= <- _ <-] x Hx. apply fill_lookup_out.
    rewrite elem_of_seqZ. lia.
  - intros a' h'. case_decide; [done|]. by intros [= _ <-].
Qed.

Lemma memset_from_mapped (h : heap) x b n :
  (∀ i, 0 ≤ i < Z.of_nat n → is_Some (h !! (x + i))) →
  ∃ h', memset_from h x b n = Some h'
        ∧ (∀ i, 0 ≤ i < Z.of_nat n → h' !! (x + i) = Some b)
        ∧ (∀ y, ¬ (x ≤ y < x + Z.of_nat n) → h' !! y = h !! y).
Proof.
  revert h x. induction n as [|n IH]; intros h x Hmap; simpl.
  - exists h. split; [done|]. split; [lia|done].
  - unfold store_byte. destruct (Hmap 0 ltac:(lia)) as [v Hv].
    rewrite Z.add_0_r in Hv. rewrite Hv.
    destruct (IH (<[x := b]> h) (x + 1)) as (h' & Hrun & Hin & Hout).
    { intros i Hi. destruct (decide (i = -1)) as [->|Hne].
      - lia.
      - rewrite lookup_insert_ne; [|lia].
        replace (x + 1 + i) with (x + (1 + i)) by lia. apply Hmap. lia. }
    exists h'. split; [done|]. split.
    + intros i Hi. destruct (decide (i = 0)) as [->|Hne].
      * rewrite Z.add_0_r, Hout; [apply lookup_insert_eq|lia].
      * replace (x + i) with (x + 1 + (i - 1)) by lia. apply Hin. lia.
    + intros y Hy. rewrite Hout; [|lia]. apply lookup_insert_ne. lia.
Qed.

Lemma memset_from_fault (h : heap) x b n :
  h !! x = None → n ≠ O → memset_from h x b n = None.
Proof.
  intros Hx Hn. destruct n as [|n]; [done|].
  simpl. unfold store_byte. by rewrite Hx.
Qed.

(** ** The feedback array *)

Lemma MAX_max a b : MAX a b = Z.max a b.
Proof. unfold MAX. destruct (Z.gtb_spec a b); lia. Qed.

Lemma hash_range `{Platform A} k : 0 ≤ hash A k < MAP_SIZE.
Proof.
  unfold hash, MAP_SIZE. change (16 * 1024 - 1) with (Z.ones 14).
  rewrite Z.land_ones by lia. apply Z.mod_pos_bound. lia.
Qed.

Lemma initial_map {A} (a : A) h :
  libafl_alloc_map (initial a h) = replicate (Z.to_nat MAP_SIZE) 0.
Proof. reflexivity. Qed.

Lemma feedback_length m k size : length (feedback m k size) = length m.
Proof. apply length_insert. Qed.

Lemma feedback_other m k size (j : nat) :
  j ≠ Z.to_nat k → feedback m k size !! j = m !! j.
Proof. intros Hne. unfold feedback. by rewrite list_lookup_insert_ne. Qed.

Lemma feedback_slot m k size :
  (Z.to_nat k < length m)%nat →
  feedback m k size !!! Z.to_nat k = Z.max (m !!! Z.to_nat k) size.
Proof.
  intros Hk. unfold feedback.
  by rewrite list_lookup_total_insert_eq, MAX_max.
Qed.

Lemma feedback_grows m k size (j : nat) : m !!! j ≤ feedback m k size !!! j.
Proof.
  unfold feedback. destruct (decide (Z.to_nat k < length m)%nat) as [Hk|Hk].
  - destruct (decide (Z.to_nat k = j)) as [<-|Hne].
    + rewrite list_lookup_total_insert_eq, MAX_max by done. lia.
    + by rewrite list_lookup_total_insert_ne.
  - rewrite list_insert_ge by lia. done.
Qed.

Section MapFacts.
Context {A : Type} `{Platform A}.

Lemma malloc_map (st : state A) ra size :
  libafl_alloc_map (final (malloc st ra size))
  = feedback (libafl_alloc_map st) (hash A ra) size.
Proof.
  unfold malloc. by destruct (posix_memalign _ _ _ _) as [[[p|] a] h].
Qed.

Lemma calloc_map (st : state A) ra nmemb size :
  libafl_alloc_map (final (calloc st ra nmemb size))
  = feedback (libafl_alloc_map st) (hash A ra) (wrap A (size * nmemb)).
Proof.
  unfold calloc. destruct (posix_memalign _ _ _ _) as [[stored a] h].
  by destruct (memset _ _ _ _).
Qed.

Lemma invoke_map (st : state A) c :
  libafl_alloc_map (final (invoke st c))
  = feedback (libafl_alloc_map st) (hash A (call_site c)) (requested A c).
Proof. destruct c; [apply malloc_map|apply calloc_map]. Qed.

Lemma run_length (st : state A) cs :
  length (libafl_alloc_map (run st cs).2) = length (libafl_alloc_map st).
Proof.
  revert st. induction cs as [|c cs IH]; intros st; simpl; [done|].
  pose proof (invoke_map st c) as Hm.
  destruct (invoke st c) as [r st'|st']; simpl in *.
  - specialize (IH st'). destruct (run st' cs) as [entered st'']. simpl in *.
    by rewrite IH, Hm, feedback_length.
  - by rewrite Hm, feedback_length.
Qed.

Lemma run_grows (st : state A) cs (j : nat) :
  libafl_alloc_map st !!! j ≤ libafl_alloc_map (run st cs).2 !!! j.
Proof.
  revert st. induction cs as [|c cs IH]; intros st; simpl; [done|].
  pose proof (invoke_map st c) as Hm.
  pose proof (feedback_grows (libafl_alloc_map st)
                (hash A (call_site c)) (requested A c) j) as Hg.
  destruct (invoke st c) as [r st'|st']; simpl in *.
  - specialize (IH st'). destruct (run st' cs) as [entered st'']. simpl in *.
    rewrite <- Hm in Hg. lia.
  - by rewrite Hm.
Qed.

End MapFacts.

Section Sequences.
Context {A : Type} `{Platform A}.

Lemma observed_max_nonneg k (cs : list call) : 0 ≤ observed_max A k cs.
Proof.
  unfold observed_max.
  induction (filter _ cs) as [|c l IH]; [done|].
  rewrite fmap_cons. simpl. lia.
Qed.

Lemma observed_max_cons k c (cs : list call) :
  observed_max A k (c :: cs)
  = if decide (hash A (call_site c) = k)
    then Z.max (requested A c) (observed_max A k cs)
    else observed_max A k cs.
Proof. unfold observed_max. rewrite filter_cons. by case_decide. Qed.

Lemma feedback_at m c k :
  (Z.to_nat k < length m)%nat → 0 ≤ k →
  feedback m (hash A (call_site c)) (requested A c) !!! Z.to_nat k
  = if decide (hash A (call_site c) = k)
    then Z.max (m !!! Z.to_nat k) (requested A c)
    else m !!! Z.to_nat k.
Proof.
  intros Hlen Hk. case_decide as Heq.
  - subst k. by apply feedback_slot.
  - unfold feedback. rewrite list_lookup_total_insert_ne; [done|].
    pose proof (hash_range (call_site c)). lia.
Qed.

Lemma run_slot (st : state A) cs k :
  (Z.to_nat k < length (libafl_alloc_map st))%nat → 0 ≤ k →
  0 ≤ libafl_alloc_map st !!! Z.to_nat k →
  libafl_alloc_map (run st cs).2 !!! Z.to_nat k
  = Z.max (libafl_alloc_map st !!! Z.to_nat k)
          (observed_max A k (run st cs).1).
Proof.
  intros Hlen Hk. revert st Hlen.
  induction cs as [|c cs IH]; intros st Hlen Hpos; simpl.
  { change (observed_max A k []) with 0. lia. }
  pose proof (invoke_map st c) as Hm.
  pose proof (feedback_at (libafl_alloc_map st) c k Hlen Hk) as Hat.
  rewrite <- Hm in Hat.
  destruct (invoke st c) as [r st'|st']; simpl in *.
  - specialize (IH st'). destruct (run st' cs) as [entered st'']. simpl in *.
    rewrite IH, Hat, observed_max_cons.
    + case_decide; lia.
    + by rewrite Hm, feedback_length.
    + rewrite Hat. case_decide; lia.
  - rewrite Hat, observed_max_cons. change (observed_max A k []) with 0.
    case_decide; lia.
Qed.

Lemma run_app_grows (st : state A) cs cs' (j : nat) :
  libafl_alloc_map (run st cs).2 !!! j
  ≤ libafl_alloc_map (run st (cs ++ cs')).2 !!! j.
Proof.
  revert st. induction cs as [|c cs IH]; intros st; simpl.
  { apply run_grows. }
  destruct (invoke st c) as [r st'|st']; simpl; [|done].
  specialize (IH st').
  destruct (run st' cs) as [e1 s1], (run st' (cs ++ cs')) as [e2 s2].
  done.
Qed.

Lemma observed_max_ge k c (cs : list call) :
  c ∈ cs → hash A (call_site c) = k → requested A c ≤ observed_max A k cs.
Proof.
  intros Hin Hk. induction cs as [|d cs IH]; [by apply elem_of_nil in Hin|].
  rewrite observed_max_cons. apply elem_of_cons in Hin as [->|Hin].
  - rewrite decide_True by done. lia.
  - specialize (IH Hin). case_decide; lia.
Qed.

End Sequences.

(** ** Claims about the feedback array *)

Section FeedbackClaims.
Context {A : Type} `{Platform A}.

(** C1.  Every call leaves every slot of [libafl_alloc_map] at least as
    large as it found it, and so does every longer run compared with a
    shorter one.  Started from the zero-initialised array, after the calls
    of a run slot [k] holds exactly the largest byte count requested by
    the calls whose call site hashes to [k], hence at least each of
    them. *)
Theorem feedback_map_holds_maximum (a0 : A) (h0 : heap) (cs : list call) :
  (∀ (st : state A) c (j : nat),
      libafl_alloc_map st !!! j ≤ libafl_alloc_map (final (invoke st c)) !!! j)
  ∧ (∀ cs' (j : nat),
      libafl_alloc_map (run (initial a0 h0) cs).2 !!! j
      ≤ libafl_alloc_map (run (initial a0 h0) (cs ++ cs')).2 !!! j)
  ∧ (∀ k, 0 ≤ k < MAP_SIZE →
      libafl_alloc_map (run (initial a0 h0) cs).2 !!! Z.to_nat k
      = observed_max A k (run (initial a0 h0) cs).1)
  ∧ (∀ c, c ∈ (run (initial a0 h0) cs).1 →
      requested A c
      ≤ libafl_alloc_map (run (initial a0 h0) cs).2
          !!! Z.to_nat (hash A (call_site c))).
Proof.
  assert (Hslot : ∀ k, 0 ≤ k < MAP_SIZE →
      libafl_alloc_map (run (initial a0 h0) cs).2 !!! Z.to_nat k
      = observed_max A k (run (initial a0 h0) cs).1).
  { intros k Hk.
    assert (Hlen : (Z.to_nat k < length (libafl_alloc_map (initial a0 h0)))%nat).
    { rewrite initial_map, length_replicate. lia. }
    rewrite run_slot; [|done|lia|].
    - rewrite initial_map, lookup_total_replicate_2 by lia.
      pose proof (observed_max_nonneg k (run (initial a0 h0) cs).1). lia.
    - rewrite initial_map, lookup_total_replicate_2 by lia. done. }
  split; [|split; [|split]].
  - intros st c j. rewrite invoke_map. apply feedback_grows.
  - intros cs' j. apply run_app_grows.
  - exact Hslot.
  - intros c Hc. rewrite Hslot by apply hash_range.
    by apply observed_max_ge.
Qed.

(** C4.  For every return address [a], [malloc] and [calloc] both write the
    slot [((a >> 4) ^ (a << 8)) & (16384 - 1)], that is the low 14 bits of
    the xor of [a / 16] with the wrapped [a * 256]; the slot lies in
    [0, 16384), and the array has 16384 entries at start and after every
    call. *)
Theorem bucket_of_return_address (st : state A) (a : Z) :
  hash A a
  = Z.land (Z.lxor (Z.shiftr a 4) (Z.shiftl a 8 `mod` 2 ^ Z.of_N size_bits))
           (16384 - 1)
  ∧ hash A a
    = Z.lxor (a `div` 16) ((a * 256) `mod` 2 ^ Z.of_N size_bits) `mod` 16384
  ∧ 0 ≤ hash A a < 16384
  ∧ (∀ size,
      libafl_alloc_map (final (malloc st a size))
      = <[Z.to_nat (hash A a) :=
            MAX (libafl_alloc_map st !!! Z.to_nat (hash A a)) size]>
          (libafl_alloc_map st))
  ∧ (∀ nmemb size,
      libafl_alloc_map (final (calloc st a nmemb size))
      = <[Z.to_nat (hash A a) :=
            MAX (libafl_alloc_map st !!! Z.to_nat (hash A a))
                (wrap A (size * nmemb))]>
          (libafl_alloc_map st))
  ∧ (∀ (a0 : A) h0, length (libafl_alloc_map (initial a0 h0)) = Z.to_nat 16384)
  ∧ (∀ c, length (libafl_alloc_map (final (invoke st c)))
          = length (libafl_alloc_map st)).
Proof.
  split; [reflexivity|]. split.
  { unfold hash, wrap, MAP_SIZE. change (16 * 1024 - 1) with (Z.ones 14).
    rewrite Z.land_ones, Z.shiftr_div_pow2, Z.shiftl_mul_pow2 by lia.
    reflexivity. }
  split; [apply hash_range|].
  split; [intros size; apply malloc_map|].
  split; [intros nmemb size; apply calloc_map|].
  split.
  - intros a0 h0. rewrite initial_map. apply length_replicate.
  - intros c. rewrite invoke_map. apply feedback_length.
Qed.

(** C7.  A call writes no slot other than the one its return address
    hashes to.  A second call from the same return address writes that
    same slot again, which then holds the larger of the old value and the
    two byte counts.  When two calls hash to different slots, each slot
    ends up as if the other call had not been made. *)
Theorem call_updates_one_bucket (st : state A) (c : call) :
  let k := Z.to_nat (hash A (call_site c)) in
  let st1 := final (invoke st c) in
  (∀ j : nat, j ≠ k → libafl_alloc_map st1 !! j = libafl_alloc_map st !! j)
  ∧ (∀ c', call_site c' = call_site c →
      libafl_alloc_map (final (invoke st1 c'))
      = <[k := MAX (MAX (libafl_alloc_map st !!! k) (requested A c))
                   (requested A c')]> (libafl_alloc_map st))
  ∧ (∀ c', hash A (call_site c') ≠ hash A (call_site c) →
      let k' := Z.to_nat (hash A (call_site c')) in
      let st2 := final (invoke st1 c') in
      libafl_alloc_map st2 !! k = libafl_alloc_map st1 !! k
      ∧ libafl_alloc_map st2 !! k'
        = libafl_alloc_map (final (invoke st c')) !! k'
      ∧ ∀ j : nat, j ≠ k → j ≠ k' →
          libafl_alloc_map st2 !! j = libafl_alloc_map st !! j).
Proof.
  intros k st1. subst st1. split; [|split].
  - intros j Hj. rewrite invoke_map. by apply feedback_other.
  - intros c' Hsite. rewrite !invoke_map, Hsite. fold k. unfold feedback.
    fold k. destruct (decide (k < length (libafl_alloc_map st))%nat).
    + rewrite list_lookup_total_insert_eq by done.
      apply list_insert_insert_eq.
    + by rewrite !list_insert_ge by (rewrite ?length_insert; lia).
  - intros c' Hne k' st2. subst st2.
    assert (Hk : k' ≠ k).
    { subst k k'. pose proof (hash_range (call_site c)).
      pose proof (hash_range (call_site c')). lia. }
    rewrite !invoke_map. fold k k'. split; [|split].
    + by apply feedback_other.
    + unfold feedback. fold k k'.
      rewrite (list_lookup_total_insert_ne _ k k') by done.
      destruct (decide (k' < length (libafl_alloc_map st))%nat).
      * rewrite !list_lookup_insert_eq; [done..|].
        by rewrite length_insert.
      * rewrite !(list_insert_ge _ k') by (rewrite ?length_insert; lia).
        by rewrite list_lookup_insert_ne.
    + intros j Hj Hj'. by rewrite !feedback_other.
Qed.

End FeedbackClaims.

(** ** The allocation path *)

Section AllocFacts.
Context {A : Type} `{Platform A}.

Lemma wrap_range x : 0 ≤ wrap A x < 2 ^ Z.of_N size_bits.
Proof. unfold wrap. apply Z.mod_pos_bound. lia. Qed.

Lemma wrap_small x : 0 ≤ x < 2 ^ Z.of_N size_bits → wrap A x = x.
Proof. intros. unfold wrap. by apply Z.mod_small. Qed.

Lemma malloc_unfold (st : state A) ra size stored a h :
  posix_memalign (allocator st) (memory st) 64 size = (stored, a, h) →
  malloc st ra size
  = Returned (default 0 stored)
      (State (feedback (libafl_alloc_map st) (hash A ra) size) a h).
Proof.
  intros Hp. unfold malloc. change (Z.shiftl 1 6) with 64. by rewrite Hp.
Qed.

Lemma calloc_unfold (st : state A) ra nmemb size stored a h :
  posix_memalign (allocator st) (memory st) 64 (wrap A (size * nmemb))
  = (stored, a, h) →
  calloc st ra nmemb size
  = let total := wrap A (size * nmemb) in
    let m := feedback (libafl_alloc_map st) (hash A ra) total in
    match memset h (default 0 stored) 0 total with
    | Some h' => Returned (default 0 stored) (State m a h')
    | None => Crashed (State m a h)
    end.
Proof.
  intros Hp. unfold calloc. change (Z.shiftl 1 6) with 64. by rewrite Hp.
Qed.

Lemma memset_null_faults (h : heap) n :
  h !! 0 = None → 0 < n → memset h 0 0 n = None.
Proof.
  intros Hnull Hn. unfold memset. apply memset_from_fault; [done|lia].
Qed.

Lemma memset_nothing (h : heap) s : memset h s 0 0 = Some h.
Proof. reflexivity. Qed.

Lemma memset_region (h : heap) s n :
  0 ≤ n → (∀ i, 0 ≤ i < n → is_Some (h !! (s + i))) →
  ∃ h', memset h s 0 n = Some h'
        ∧ (∀ i, 0 ≤ i < n → h' !! (s + i) = Some 0)
        ∧ (∀ y, ¬ (s ≤ y < s + n) → h' !! y = h !! y).
Proof.
  intros Hn Hmap. unfold memset. change (0 `mod` 256) with 0.
  destruct (memset_from_mapped h s 0 (Z.to_nat n)) as (h' & Hrun & Hin & Hout).
  { intros i Hi. apply Hmap. lia. }
  exists h'. split; [done|]. split.
  - intros i Hi. apply Hin. lia.
  - intros y Hy. apply Hout. lia.
Qed.

Context `{!PlatformSpec A}.

Lemma calloc_success (st : state A) ra nmemb size p a h :
  posix_memalign (allocator st) (memory st) 64 (wrap A (size * nmemb))
  = (Some p, a, h) →
  ∃ h', calloc st ra nmemb size
        = Returned p
            (State (feedback (libafl_alloc_map st) (hash A ra)
                      (wrap A (size * nmemb))) a h')
        ∧ (∀ i, 0 ≤ i < wrap A (size * nmemb) → h' !! (p + i) = Some 0)
        ∧ (∀ y, ¬ (p ≤ y < p + wrap A (size * nmemb)) → h' !! y = h !! y).
Proof.
  intros Hp. rewrite (calloc_unfold _ _ _ _ _ _ _ Hp). simpl.
  destruct (memset_region h p (wrap A (size * nmemb)))
    as (h' & -> & Hin & Hout).
  - apply wrap_range.
  - by eapply memalign_region.
  - by exists h'.
Qed.

Lemma calloc_failure_crash (st : state A) ra nmemb size a h :
  posix_memalign (allocator st) (memory st) 64 (wrap A (size * nmemb))
  = (None, a, h) →
  memory st !! 0 = None →
  0 < wrap A (size * nmemb) →
  calloc st ra nmemb size
  = Crashed (State (feedback (libafl_alloc_map st) (hash A ra)
                      (wrap A (size * nmemb))) a h).
Proof.
  intros Hp Hnull Hpos. rewrite (calloc_unfold _ _ _ _ _ _ _ Hp). simpl.
  rewrite memset_null_faults; [done| |done].
  by rewrite (memalign_failed _ _ _ _ _ _ Hp).
Qed.

End AllocFacts.

(** ** Claims about the allocation path *)

Section AllocClaims.
Context {A : Type} `{Platform A}.

(** C10.  The array is written before [posix_memalign] is called: when the
    request fails, the slot of the call site still holds
    [MAX(old, size)], which is at least the requested byte count ([calloc]:
    the wrapped product), whether the hook returns or the process dies; if
    the old value was smaller, the array differs from the one before the
    call. *)
Theorem feedback_survives_failure (st : state A) (c : call) a h :
  length (libafl_alloc_map st) = Z.to_nat MAP_SIZE →
  posix_memalign (allocator st) (memory st) 64 (requested A c) = (None, a, h) →
  let k := Z.to_nat (hash A (call_site c)) in
  let st' := final (invoke st c) in
  libafl_alloc_map st' !!! k = MAX (libafl_alloc_map st !!! k) (requested A c)
  ∧ requested A c ≤ libafl_alloc_map st' !!! k
  ∧ (libafl_alloc_map st !!! k < requested A c →
     libafl_alloc_map st' ≠ libafl_alloc_map st)
  ∧ allocator st' = a
  ∧ (result (invoke st c) = Some 0 ∨ result (invoke st c) = None).
Proof.
  intros Hlen Hfail k st'.
  assert (Hk : (k < length (libafl_alloc_map st))%nat).
  { subst k. pose proof (hash_range (call_site c)). lia. }
  assert (Hslot : libafl_alloc_map st' !!! k
                  = MAX (libafl_alloc_map st !!! k) (requested A c)).
  { subst st'. rewrite invoke_map. unfold feedback. fold k.
    by rewrite list_lookup_total_insert_eq. }
  split; [done|]. split; [rewrite Hslot, MAX_max; lia|].
  split; [intros Hlt Heq; rewrite Heq, MAX_max in Hslot; lia|].
  subst st'. destruct c as [ra size|ra nmemb size]; simpl in *.
  - rewrite (malloc_unfold _ _ _ _ _ _ Hfail). simpl. auto.
  - rewrite (calloc_unfold _ _ _ _ _ _ _ Hfail). simpl.
    destruct (memset _ _ _ _); simpl; auto.
Qed.

Context `{!PlatformSpec A}.

(** C5.  When [c * e] fits [size_t] and [posix_memalign] serves the
    request for [c * e] bytes with address [p], [calloc(c, e)] returns [p],
    the [c * e] bytes from [p] on are all zero, and every byte outside them
    is as it was before the call. *)
Theorem calloc_returns_zeroed_region (st : state A) ra c e p a h :
  0 ≤ c → 0 ≤ e → c * e < 2 ^ Z.of_N size_bits →
  posix_memalign (allocator st) (memory st) 64 (c * e) = (Some p, a, h) →
  ∃ st', calloc st ra c e = Returned p st'
         ∧ p ≠ 0 ∧ p `mod` 64 = 0
         ∧ (∀ i, 0 ≤ i < c * e → memory st' !! (p + i) = Some 0)
         ∧ (∀ y, ¬ (p ≤ y < p + c * e) → memory st' !! y = memory st !! y)
         ∧ allocator st' = a.
Proof.
  intros Hc He Hfit Hp.
  assert (Hw : wrap A (e * c) = c * e) by (rewrite wrap_small; nia).
  destruct (calloc_success st ra c e p a h) as (h' & Hrun & Hin & Hout).
  { by rewrite Hw. }
  rewrite Hw in *. eexists. split; [exact Hrun|]. simpl.
  split; [by eapply memalign_nonnull|].
  split; [by eapply memalign_aligned|].
  split; [done|]. split; [|done].
  intros y Hy. rewrite Hout by done. by eapply memalign_frame.
Qed.

(** C8.  [malloc] always returns; what it returns is the address
    [posix_memalign] stored for alignment [1<<6 = 64], or [NULL] when it
    stored none; every address returned that is not [NULL] is a multiple
    of 64. *)
Theorem malloc_returns_aligned (st : state A) ra size :
  ∃ ret st', malloc st ra size = Returned ret st'
    ∧ ret = default 0
              (posix_memalign (allocator st) (memory st) (Z.shiftl 1 6) size).1.1
    ∧ Z.shiftl 1 6 = 64
    ∧ (ret ≠ 0 → ret `mod` 64 = 0).
Proof.
  destruct (posix_memalign (allocator st) (memory st) 64 size)
    as [[stored a] h] eqn:Hp.
  rewrite (malloc_unfold _ _ _ _ _ _ Hp).
  change (Z.shiftl 1 6) with 64. rewrite Hp. simpl.
  eexists _, _. split; [reflexivity|]. split; [done|]. split; [done|].
  destruct stored as [p|]; simpl; [|done].
  intros _. by eapply memalign_aligned.
Qed.

(** C3.  [calloc] depends on [nmemb] and [size] only through
    [(size * nmemb) mod 2^size_bits]: that wrapped total is what is written
    to the array, asked of [posix_memalign] and passed to [memset], and a
    request whose true product does not fit is served like any other when
    [posix_memalign] succeeds for the wrapped total. *)
Theorem calloc_total_wraps (st : state A) ra nmemb size :
  let total := (size * nmemb) `mod` 2 ^ Z.of_N size_bits in
  calloc st ra nmemb size = calloc st ra 1 total
  ∧ libafl_alloc_map (final (calloc st ra nmemb size))
    = feedback (libafl_alloc_map st) (hash A ra) total
  ∧ (∀ stored a h,
      posix_memalign (allocator st) (memory st) 64 total = (stored, a, h) →
      calloc st ra nmemb size
      = match memset h (default 0 stored) 0 total with
        | Some h' =>
            Returned (default 0 stored)
              (State (feedback (libafl_alloc_map st) (hash A ra) total) a h')
        | None =>
            Crashed
              (State (feedback (libafl_alloc_map st) (hash A ra) total) a h)
        end)
  ∧ (∀ p a h,
      posix_memalign (allocator st) (memory st) 64 total = (Some p, a, h) →
      ∃ st', calloc st ra nmemb size = Returned p st'
             ∧ ∀ i, 0 ≤ i < total → memory st' !! (p + i) = Some 0).
Proof.
  intros total. fold (wrap A (size * nmemb)) in total.
  split; [|split; [|split]].
  - unfold calloc. rewrite Z.mul_1_r. fold total.
    assert (Hid : wrap A total = total).
    { apply wrap_small. apply wrap_range. }
    by rewrite Hid.
  - apply calloc_map.
  - intros stored a h Hp. by rewrite (calloc_unfold _ _ _ _ _ _ _ Hp).
  - intros p a h Hp.
    destruct (calloc_success st ra nmemb size p a h Hp) as (h' & Hrun & Hin & _).
    eexists. split; [exact Hrun|]. exact Hin.
Qed.

(** C9, as amended.  [malloc(0)] never kills the process: it returns what
    [posix_memalign] stored for a request of 0 bytes at alignment 64, a
    non-null multiple of 64, or [NULL] when nothing was stored.  A repeated
    call from the same call site behaves the same way, and the two results
    are of the same kind exactly when [posix_memalign] answered the two
    requests alike. *)
Theorem malloc_zero_never_crashes (st : state A) ra :
  ∃ r1 st1, malloc st ra 0 = Returned r1 st1
    ∧ r1 = default 0 (posix_memalign (allocator st) (memory st) 64 0).1.1
    ∧ (r1 = 0 ∨ r1 ≠ 0 ∧ r1 `mod` 64 = 0)
    ∧ ∃ r2 st2, malloc st1 ra 0 = Returned r2 st2
        ∧ (r2 = 0 ∨ r2 ≠ 0 ∧ r2 `mod` 64 = 0)
        ∧ ((is_Some (posix_memalign (allocator st) (memory st) 64 0).1.1
            ↔ is_Some (posix_memalign (allocator st1) (memory st1) 64 0).1.1)
           ↔ (r1 = 0 ↔ r2 = 0)).
Proof.
  assert (Hkind : ∀ (s : state A) stored a h,
    posix_memalign (allocator s) (memory s) 64 0 = (stored, a, h) →
    (default 0 stored = 0 ∨ default 0 stored ≠ 0 ∧ default 0 stored `mod` 64 = 0)
    ∧ (is_Some stored ↔ default 0 stored ≠ 0)).
  { intros s [p|] a h Hp; simpl.
    - pose proof (memalign_nonnull _ _ _ _ _ _ _ Hp).
      pose proof (memalign_aligned _ _ _ _ _ _ _ Hp ltac:(lia)).
      split; [by right|]. split; [done|eauto].
    - split; [by left|]. split; [by intros [? ?]|done]. }
  destruct (posix_memalign (allocator st) (memory st) 64 0)
    as [[s1 a1] h1] eqn:Hp1.
  rewrite (malloc_unfold _ _ _ _ _ _ Hp1). eexists _, _.
  split; [reflexivity|]. split; [done|].
  destruct (Hkind _ _ _ _ Hp1) as [Hk1 Hs1]. split; [exact Hk1|].
  cbn [allocator memory fst].
  destruct (posix_memalign a1 h1 64 0) as [[s2 a2] h2] eqn:Hp2.
  erewrite malloc_unfold by exact Hp2. eexists _, _.
  split; [reflexivity|].
  destruct (Hkind (State (feedback (libafl_alloc_map st) (hash A ra) 0) a1 h1)
              _ _ _ Hp2) as [Hk2 Hs2].
  split; [exact Hk2|]. cbn [fst].
  destruct (decide (default 0 s1 = 0)), (decide (default 0 s2 = 0)); tauto.
Qed.

(** C2.  When [posix_memalign] fails for a wrapped total that is not 0 and
    address 0 is not mapped, [calloc] does not skip line 49: [memset] is
    run on the null result, its first store faults, and the call ends in
    [Crashed] instead of returning [NULL]. *)
Theorem calloc_failure_reaches_memset (st : state A) ra nmemb size a h :
  posix_memalign (allocator st) (memory st) 64 (wrap A (size * nmemb))
  = (None, a, h) →
  memory st !! 0 = None →
  0 < wrap A (size * nmemb) →
  store_byte h 0 0 = None
  ∧ memset h 0 0 (wrap A (size * nmemb)) = None
  ∧ calloc st ra nmemb size
    = Crashed (State (feedback (libafl_alloc_map st) (hash A ra)
                        (wrap A (size * nmemb))) a h)
  ∧ result (calloc st ra nmemb size) ≠ Some 0.
Proof.
  intros Hp Hnull Hpos.
  assert (Hh : h !! 0 = None) by by rewrite (memalign_failed _ _ _ _ _ _ Hp).
  split; [unfold store_byte; by rewrite Hh|].
  split; [by apply memset_null_faults|].
  rewrite (calloc_failure_crash _ _ _ _ _ _ Hp Hnull Hpos). done.
Qed.

(** C6.  What the two hooks do when [posix_memalign] fails: [malloc]
    returns [NULL] after that one call of the allocator; [calloc] returns
    [NULL] only when the wrapped total is 0, and for any other total the
    process dies inside [memset]. *)
Theorem failure_outcomes (st : state A) ra nmemb size a h a2 h2 :
  memory st !! 0 = None →
  posix_memalign (allocator st) (memory st) 64 size = (None, a, h) →
  posix_memalign (allocator st) (memory st) 64 (wrap A (size * nmemb))
  = (None, a2, h2) →
  malloc st ra size
  = Returned 0 (State (feedback (libafl_alloc_map st) (hash A ra) size)
                  a (memory st))
  ∧ (wrap A (size * nmemb) = 0 →
     calloc st ra nmemb size
     = Returned 0 (State (feedback (libafl_alloc_map st) (hash A ra) 0)
                     a2 (memory st)))
  ∧ (0 < wrap A (size * nmemb) →
     calloc st ra nmemb size
     = Crashed (State (feedback (libafl_alloc_map st) (hash A ra)
                         (wrap A (size * nmemb))) a2 (memory st))).
Proof.
  intros Hnull Hm Hc.
  pose proof (memalign_failed _ _ _ _ _ _ Hm) as ->.
  pose proof (memalign_failed _ _ _ _ _ _ Hc) as ->.
  split; [by rewrite (malloc_unfold _ _ _ _ _ _ Hm)|]. split.
  - intros Hz. rewrite (calloc_unfold _ _ _ _ _ _ _ Hc). simpl.
    by rewrite Hz.
  - intros Hpos. by apply calloc_failure_crash.
Qed.

End AllocClaims.

(** ** The claims on the arena platform *)

(** A failed [malloc(100)] in the exhausted process still records 100. *)
Lemma feedback_survives_failure_witness :
  let k := Z.to_nat (hash arena caller) in
  let st' := final (invoke exhausted (Malloc caller 100)) in
  libafl_alloc_map st' !!! k
  = MAX (libafl_alloc_map exhausted !!! k) (requested arena (Malloc caller 100))
  ∧ requested arena (Malloc caller 100) ≤ libafl_alloc_map st' !!! k
  ∧ (libafl_alloc_map exhausted !!! k < requested arena (Malloc caller 100) →
     libafl_alloc_map st' ≠ libafl_alloc_map exhausted)
  ∧ allocator st' = Arena 0 0
  ∧ (result (invoke exhausted (Malloc caller 100)) = Some 0
     ∨ result (invoke exhausted (Malloc caller 100)) = None).
Proof.
  apply (feedback_survives_failure exhausted (Malloc caller 100) (Arena 0 0) ∅).
  - vm_compute. reflexivity.
  - vm_compute. reflexivity.
Defined.

(** [calloc(10, 4)] in the roomy process: 40 zero bytes at 4096. *)
Lemma calloc_returns_zeroed_region_witness :
  ∃ st', calloc roomy caller 10 4 = Returned 4096 st'
         ∧ 4096 ≠ 0 ∧ 4096 `mod` 64 = 0
         ∧ (∀ i, 0 ≤ i < 10 * 4 → memory st' !! (4096 + i) = Some 0)
         ∧ (∀ y, ¬ (4096 ≤ y < 4096 + 10 * 4) →
              memory st' !! y = memory roomy !! y)
         ∧ allocator st' = Arena 40 4096.
Proof.
  apply (calloc_returns_zeroed_region roomy caller 10 4 4096 (Arena 40 4096)
           (fill ∅ (seqZ 4096 40) 205)).
  - lia.
  - lia.
  - vm_compute. reflexivity.
  - vm_compute. reflexivity.
Defined.

(** [malloc(100)] in the roomy process. *)
Lemma malloc_returns_aligned_witness :
  ∃ ret st', malloc roomy caller 100 = Returned ret st'
    ∧ ret = default 0
              (posix_memalign (allocator roomy) (memory roomy)
                 (Z.shiftl 1 6) 100).1.1
    ∧ Z.shiftl 1 6 = 64
    ∧ (ret ≠ 0 → ret `mod` 64 = 0).
Proof. exact (malloc_returns_aligned roomy caller 100). Defined.

(** [calloc(2^63 + 1, 2)] on 64-bit [size_t]: the total wraps to 2. *)
Lemma calloc_total_wraps_witness :
  let total := (2 * (2 ^ 63 + 1)) `mod` 2 ^ Z.of_N (size_bits (A:=arena)) in
  calloc roomy caller (2 ^ 63 + 1) 2 = calloc roomy caller 1 total
  ∧ libafl_alloc_map (final (calloc roomy caller (2 ^ 63 + 1) 2))
    = feedback (libafl_alloc_map roomy) (hash arena caller) total
  ∧ (∀ stored a h,
      posix_memalign (allocator roomy) (memory roomy) 64 total = (stored, a, h) →
      calloc roomy caller (2 ^ 63 + 1) 2
      = match memset h (default 0 stored) 0 total with
        | Some h' =>
            Returned (default 0 stored)
              (State (feedback (libafl_alloc_map roomy) (hash arena caller) total)
                 a h')
        | None =>
            Crashed
              (State (feedback (libafl_alloc_map roomy) (hash arena caller) total)
                 a h)
        end)
  ∧ (∀ p a h,
      posix_memalign (allocator roomy) (memory roomy) 64 total = (Some p, a, h) →
      ∃ st', calloc roomy caller (2 ^ 63 + 1) 2 = Returned p st'
             ∧ ∀ i, 0 ≤ i < total → memory st' !! (p + i) = Some 0).
Proof. exact (calloc_total_wraps roomy caller (2 ^ 63 + 1) 2). Defined.

(** The overflowing request of the lemma above is served: two bytes. *)
Example calloc_overflow_served :
  2 ^ 64 ≤ 2 * (2 ^ 63 + 1)
  ∧ result (calloc roomy caller (2 ^ 63 + 1) 2) = Some 4096
  ∧ allocator (final (calloc roomy caller (2 ^ 63 + 1) 2)) = Arena 2 4096
  ∧ libafl_alloc_map (final (calloc roomy caller (2 ^ 63 + 1) 2))
      !!! Z.to_nat (hash arena caller) = 2.
Proof. vm_compute. repeat split; congruence. Qed.

(** C9, as stated, fails.  With 64 bytes left in the arena the first
    [malloc(0)] gets address 4096 and the second, from the same call site,
    gets [NULL]. *)
Lemma malloc_zero_results_differ :
  result (malloc tight caller 0) = Some 4096
  ∧ result (malloc (final (malloc tight caller 0)) caller 0) = Some 0.
Proof. split; vm_compute; reflexivity. Qed.

Lemma malloc_zero_never_crashes_witness :
  ∃ r1 st1, malloc tight caller 0 = Returned r1 st1
    ∧ r1 = default 0 (posix_memalign (allocator tight) (memory tight) 64 0).1.1
    ∧ (r1 = 0 ∨ r1 ≠ 0 ∧ r1 `mod` 64 = 0)
    ∧ ∃ r2 st2, malloc st1 caller 0 = Returned r2 st2
        ∧ (r2 = 0 ∨ r2 ≠ 0 ∧ r2 `mod` 64 = 0)
        ∧ ((is_Some (posix_memalign (allocator tight) (memory tight) 64 0).1.1
            ↔ is_Some (posix_memalign (allocator st1) (memory st1) 64 0).1.1)
           ↔ (r1 = 0 ↔ r2 = 0)).
Proof. exact (malloc_zero_never_crashes tight caller). Defined.

(** [calloc(1, 8)] in the exhausted process. *)
Lemma calloc_failure_reaches_memset_witness :
  store_byte ∅ 0 0 = None
  ∧ memset ∅ 0 0 (wrap arena (8 * 1)) = None
  ∧ calloc exhausted caller 1 8
    = Crashed (State (feedback (libafl_alloc_map exhausted) (hash arena caller)
                        (wrap arena (8 * 1))) (Arena 0 0) ∅)
  ∧ result (calloc exhausted caller 1 8) ≠ Some 0.
Proof.
  apply (calloc_failure_reaches_memset exhausted caller 1 8 (Arena 0 0) ∅).
  - vm_compute. reflexivity.
  - vm_compute. reflexivity.
  - vm_compute. reflexivity.
Defined.

(** [malloc(8)] and [calloc(1, 8)] in the exhausted process. *)
Lemma failure_outcomes_witness :
  malloc exhausted caller 8
  = Returned 0 (State (feedback (libafl_alloc_map exhausted) (hash arena caller) 8)
                  (Arena 0 0) (memory exhausted))
  ∧ (wrap arena (8 * 1) = 0 →
     calloc exhausted caller 1 8
     = Returned 0 (State (feedback (libafl_alloc_map exhausted)
                            (hash arena caller) 0)
                     (Arena 0 0) (memory exhausted)))
  ∧ (0 < wrap arena (8 * 1) →
     calloc exhausted caller 1 8
     = Crashed (State (feedback (libafl_alloc_map exhausted) (hash arena caller)
                         (wrap arena (8 * 1))) (Arena 0 0) (memory exhausted))).
Proof.
  apply (failure_outcomes exhausted caller 1 8 (Arena 0 0) ∅ (Arena 0 0) ∅).
  - vm_compute. reflexivity.
  - vm_compute. reflexivity.
  - vm_compute. reflexivity.
Defined.

(** The two outcomes of the lemma above, evaluated. *)
Example failure_outcomes_evaluated :
  result (malloc exhausted caller 8) = Some 0
  ∧ result (calloc exhausted caller 1 8) = None
  ∧ result (calloc exhausted caller 0 8) = Some 0.
Proof. vm_compute. repeat split; reflexivity. Qed.

(** ** Further properties: the hash of a return address *)

Section HashFacts.
Context {A : Type} `{Platform A}.

Lemma hash_testbit a i :
  0 ≤ i →
  Z.testbit (hash A a) i
  = (i <? 14) && xorb (Z.testbit a (i + 4))
                      ((i <? Z.of_N size_bits) && Z.testbit a (i - 8)).
Proof.
  intros Hi. unfold hash, wrap, MAP_SIZE.
  change (16 * 1024 - 1) with (Z.ones 14).
  rewrite Z.land_spec, Z.testbit_ones_nonneg, Z.lxor_spec by lia.
  rewrite Z.shiftr_spec by lia.
  destruct (Z.ltb_spec i (Z.of_N size_bits)).
  - rewrite Z.mod_pow2_bits_low, Z.shiftl_spec by lia.
    simpl. apply andb_comm.
  - rewrite Z.mod_pow2_bits_high by lia. simpl. apply andb_comm.
Qed.

Lemma testbit_add_high a t j :
  0 ≤ j < 18 → Z.testbit (a + 2 ^ 18 * t) j = Z.testbit a j.
Proof.
  intros Hj.
  rewrite <- (Z.mod_pow2_bits_low (a + 2 ^ 18 * t) 18 j) by lia.
  rewrite <- (Z.mod_pow2_bits_low a 18 j) by lia.
  f_equal. rewrite Z.mul_comm. apply Z.mod_add. lia.
Qed.

(** X1.  The slot depends on the low 18 bits of the return address only: two
    call sites a multiple of 2^18 bytes apart share their slot. *)
Theorem hash_collides_every_256k a t : hash A (a + 2 ^ 18 * t) = hash A a.
Proof.
  apply Z.bits_inj'. intros i Hi. rewrite !hash_testbit by done.
  destruct (Z.ltb_spec i 14); [|done]. simpl.
  rewrite testbit_add_high by lia.
  destruct (Z.ltb_spec i 8).
  - by rewrite !(Z.testbit_neg_r _ (i - 8)) by lia.
  - by rewrite (testbit_add_high a t (i - 8)) by lia.
Qed.

Lemma hash_nowrap a :
  14 ≤ Z.of_N size_bits →
  hash A a = Z.land (Z.lxor (Z.shiftr a 4) (Z.shiftl a 8)) 16383.
Proof.
  intros Hw. apply Z.bits_inj'. intros i Hi. rewrite hash_testbit by done.
  change 16383 with (Z.ones 14).
  rewrite Z.land_spec, Z.testbit_ones_nonneg, Z.lxor_spec by lia.
  rewrite Z.shiftr_spec, Z.shiftl_spec by lia.
  destruct (Z.ltb_spec i 14).
  - rewrite (proj2 (Z.ltb_lt i (Z.of_N size_bits))) by lia.
    simpl. by rewrite andb_true_r.
  - by rewrite andb_false_r.
Qed.

(** X2.  On a platform whose [uintptr_t] has at least 14 bits the
    wrap-around of [k << 8] never reaches the slot: the slot is the same
    whatever the width. *)
Theorem hash_ignores_width a :
  14 ≤ Z.of_N size_bits →
  hash A a = Z.land (Z.lxor (Z.shiftr a 4) (Z.shiftl a 8)) 16383.
Proof. apply hash_nowrap. Qed.

(** X3.  Bit by bit, on such a platform: slot bits 0 to 7 are address bits 4 to
    11, slot bits 8 to 13 are address bits 12 to 17 xor address bits 0 to 5,
    and no higher slot bit is set. *)
Theorem hash_bits a i :
  14 ≤ Z.of_N size_bits → 0 ≤ i →
  Z.testbit (hash A a) i
  = if i <? 8 then Z.testbit a (i + 4)
    else if i <? 14 then xorb (Z.testbit a (i + 4)) (Z.testbit a (i - 8))
    else false.
Proof.
  intros Hw Hi. rewrite hash_testbit by done.
  destruct (Z.ltb_spec i 8).
  - rewrite (proj2 (Z.ltb_lt i 14)) by lia.
    rewrite (Z.testbit_neg_r _ (i - 8)) by lia.
    by rewrite andb_false_r, xorb_false_r.
  - destruct (Z.ltb_spec i 14); [|done].
    by rewrite (proj2 (Z.ltb_lt i (Z.of_N size_bits))) by lia.
Qed.

Lemma slot_preimages :
  forallb (λ k, let a := 16 * Z.lxor k (Z.shiftl (Z.land k 3) 12) in
                (Z.land (Z.lxor (Z.shiftr a 4) (Z.shiftl a 8)) 16383 =? k)
                && (0 <=? a) && (a <? 2 ^ 18))
          (seqZ 0 16384) = true.
Proof. vm_compute. reflexivity. Qed.

(** X4.  No slot is dead: when [uintptr_t] has at least 18 bits, every index of
    the array is the slot of some address below 2^18. *)
Theorem every_slot_reachable k :
  18 ≤ Z.of_N size_bits → 0 ≤ k < MAP_SIZE →
  ∃ a, 0 ≤ a < 2 ^ 18 ∧ a < 2 ^ Z.of_N size_bits ∧ hash A a = k.
Proof.
  intros Hw Hk. unfold MAP_SIZE in Hk.
  pose proof slot_preimages as Hall. rewrite forallb_forall in Hall.
  assert (Hin : In k (seqZ 0 16384)).
  { apply list_elem_of_In, elem_of_seqZ. lia. }
  specialize (Hall k Hin). simpl in Hall.
  apply andb_prop in Hall as [Hall Hhi].
  apply andb_prop in Hall as [Hh Hlo].
  exists (16 * Z.lxor k (Z.shiftl (Z.land k 3) 12)).
  apply Z.eqb_eq in Hh. apply Z.leb_le in Hlo. apply Z.ltb_lt in Hhi.
  split; [lia|]. split.
  - assert (2 ^ 18 ≤ 2 ^ Z.of_N size_bits) by (apply Z.pow_le_mono_r; lia).
    lia.
  - rewrite hash_nowrap by lia. exact Hh.
Qed.

End HashFacts.

(** ** Further properties: the feedback array over runs *)

Lemma MAX_keeps a s : s ≤ a → MAX a s = a.
Proof. intros. unfold MAX. destruct (Z.gtb_spec a s); lia. Qed.

Lemma feedback_comm m k1 s1 k2 s2 :
  feedback (feedback m k1 s1) k2 s2 = feedback (feedback m k2 s2) k1 s1.
Proof.
  unfold feedback. destruct (decide (Z.to_nat k1 = Z.to_nat k2)) as [Heq|Hne].
  - rewrite Heq. destruct (decide (Z.to_nat k2 < length m)%nat).
    + rewrite !list_lookup_total_insert_eq, !list_insert_insert_eq by done.
      f_equal. rewrite !MAX_max. lia.
    + by rewrite !list_insert_ge by (rewrite ?length_insert; lia).
  - rewrite !list_lookup_total_insert_ne by done.
    by apply list_insert_insert_ne.
Qed.

Lemma feedback_in_range m k s (hi : Z) :
  0 < hi → Forall (λ v, 0 ≤ v < hi) m → 0 ≤ s < hi →
  Forall (λ v, 0 ≤ v < hi) (feedback m k s).
Proof.
  intros Hhi Hm Hs. unfold feedback.
  destruct (m !! Z.to_nat k) as [v|] eqn:Hv.
  - apply Forall_insert; [done|].
    rewrite MAX_max, (list_lookup_total_correct _ _ _ Hv).
    pose proof (Forall_lookup_1 _ _ _ _ Hm Hv) as Hr. simpl in Hr. lia.
  - apply lookup_ge_None in Hv. by rewrite list_insert_ge.
Qed.

Section RunFacts.
Context {A : Type} `{Platform A}.

(** The step of the array that a call makes. *)
Local Abbreviation record := (λ m c, feedback m (hash A (call_site c)) (requested A c)).

Lemma run_fold (st : state A) cs :
  libafl_alloc_map (run st cs).2 = foldl record (libafl_alloc_map st) (run st cs).1.
Proof.
  revert st. induction cs as [|c cs IH]; intros st; simpl; [done|].
  pose proof (invoke_map st c) as Hm.
  destruct (invoke st c) as [r st'|st']; simpl in *.
  - specialize (IH st'). destruct (run st' cs) as [entered st'']. simpl in *.
    by rewrite IH, Hm.
  - by rewrite Hm.
Qed.

Lemma record_permutation (cs cs' : list call) :
  cs ≡ₚ cs' → ∀ m, foldl record m cs = foldl record m cs'.
Proof.
  induction 1 as [|c l l' _ IH|c d l|l1 l2 l3 _ IH1 _ IH2]; intros m; simpl.
  - done.
  - apply IH.
  - by rewrite feedback_comm.
  - by rewrite IH1.
Qed.

Lemma run_entered_subset (st : state A) cs c :
  c ∈ (run st cs).1 → c ∈ cs.
Proof.
  revert st. induction cs as [|d cs IH]; intros st; simpl; [done|].
  destruct (invoke st d) as [r st'|st']; simpl.
  - specialize (IH st'). destruct (run st' cs) as [entered st'']. simpl in *.
    intros [->|Hin]%elem_of_cons; [left|right; auto].
  - intros ->%list_elem_of_singleton. left.
Qed.

Lemma observed_max_attained k (cs : list call) :
  observed_max A k cs = 0
  ∨ ∃ c, c ∈ cs ∧ hash A (call_site c) = k
         ∧ requested A c = observed_max A k cs.
Proof.
  induction cs as [|d cs IH]; [by left|].
  rewrite observed_max_cons. case_decide as Hd.
  - destruct (Z.max_spec (requested A d) (observed_max A k cs)) as [[_ ->]|[_ ->]].
    + destruct IH as [IH|(c & Hin & Hk & Hc)]; [by left|].
      right. exists c. split; [by right|done].
    + right. exists d. split; [left|done].
  - destruct IH as [IH|(c & Hin & Hk & Hc)]; [by left|].
    right. exists c. split; [by right|done].
Qed.

(** X5.  The array does not depend on the order of the calls: two runs that
    start from the same array and enter the same calls, in any order and
    with any allocator, end with the same array. *)
Theorem map_order_independent (st st' : state A) cs cs' :
  libafl_alloc_map st = libafl_alloc_map st' →
  (run st cs).1 ≡ₚ (run st' cs').1 →
  libafl_alloc_map (run st cs).2 = libafl_alloc_map (run st' cs').2.
Proof.
  intros Hm Hp. rewrite !run_fold, Hm. by apply record_permutation.
Qed.

(** X6.  A request that is not larger than what its slot already holds leaves
    the whole array as it is. *)
Theorem smaller_request_changes_nothing (st : state A) c :
  requested A c ≤ libafl_alloc_map st !!! Z.to_nat (hash A (call_site c)) →
  libafl_alloc_map (final (invoke st c)) = libafl_alloc_map st.
Proof.
  intros Hle. rewrite invoke_map. unfold feedback.
  rewrite MAX_keeps by done. apply list_insert_id'.
  intros Hlt. by apply list_lookup_lookup_total_lt.
Qed.

(** X7.  The entries stay values of [size_t]: if they are in [0, 2^size_bits)
    before a run and so is every byte count passed to [malloc], they are
    after it ([calloc]'s byte count is wrapped and needs no assumption). *)
Theorem map_entries_stay_in_range (st : state A) cs :
  Forall (λ v, 0 ≤ v < 2 ^ Z.of_N size_bits) (libafl_alloc_map st) →
  Forall (λ c, ∀ ra size, c = Malloc ra size → 0 ≤ size < 2 ^ Z.of_N size_bits) cs →
  Forall (λ v, 0 ≤ v < 2 ^ Z.of_N size_bits) (libafl_alloc_map (run st cs).2).
Proof.
  revert st. induction cs as [|c cs IH]; intros st Hm Hcs; simpl; [done|].
  apply Forall_cons in Hcs as [Hc Hcs].
  assert (Hreq : 0 ≤ requested A c < 2 ^ Z.of_N size_bits).
  { destruct c as [ra size|ra nmemb size]; simpl.
    - by eapply Hc.
    - unfold wrap. apply Z.mod_pos_bound. lia. }
  pose proof (invoke_map st c) as Hi.
  assert (Hpos : 0 < 2 ^ Z.of_N size_bits) by (apply Z.pow_pos_nonneg; lia).
  pose proof (feedback_in_range (libafl_alloc_map st) (hash A (call_site c))
                (requested A c) _ Hpos Hm Hreq) as Hr.
  rewrite <- Hi in Hr.
  destruct (invoke st c) as [r st'|st']; simpl in *; [|done].
  specialize (IH st' Hr Hcs). by destruct (run st' cs).
Qed.

(** X8.  Nothing is invented: started from the zero-initialised array, a slot
    that is not 0 holds exactly the byte count of one of the calls that were
    entered and whose call site hashes to that slot. *)
Theorem slot_value_was_requested (a0 : A) (h0 : heap) cs k :
  0 ≤ k < MAP_SIZE →
  libafl_alloc_map (run (initial a0 h0) cs).2 !!! Z.to_nat k ≠ 0 →
  ∃ c, c ∈ (run (initial a0 h0) cs).1 ∧ c ∈ cs
       ∧ hash A (call_site c) = k
       ∧ requested A c = libafl_alloc_map (run (initial a0 h0) cs).2 !!! Z.to_nat k.
Proof.
  intros Hk Hnz.
  assert (Hslot : libafl_alloc_map (run (initial a0 h0) cs).2 !!! Z.to_nat k
                  = observed_max A k (run (initial a0 h0) cs).1).
  { rewrite run_slot; [| |lia|].
    - rewrite initial_map, lookup_total_replicate_2 by lia.
      pose proof (observed_max_nonneg k (run (initial a0 h0) cs).1). lia.
    - rewrite initial_map, length_replicate. lia.
    - by rewrite initial_map, lookup_total_replicate_2 by lia. }
  rewrite Hslot in *.
  destruct (observed_max_attained k (run (initial a0 h0) cs).1)
    as [Hz|(c & Hin & Hc & Hreq)]; [done|].
  exists c. split; [done|]. split; [by eapply run_entered_subset|done].
Qed.

End RunFacts.

(** ** Further properties: the allocation path *)

Section AllocExtras.
Context {A : Type} `{Platform A}.

(** X9.  A [calloc] whose wrapped total is 0 (a zero argument, or a product that
    is a multiple of 2^size_bits) is [malloc(0)]: same result, same state,
    no byte touched, and no fault even when the allocation fails. *)
Theorem calloc_zero_total_is_malloc_zero (st : state A) ra nmemb size :
  wrap A (size * nmemb) = 0 →
  calloc st ra nmemb size = malloc st ra 0.
Proof.
  intros Hz. unfold calloc, malloc. rewrite Hz.
  destruct (posix_memalign _ _ _ _) as [[stored a] h].
  by rewrite memset_nothing.
Qed.

Context `{!PlatformSpec A}.

(** X10.  [malloc] itself writes no byte.  When it returns [NULL] the heap is the
    one before the call; when it returns an address, the [size] bytes from
    there on are mapped and every byte outside them is as before. *)
Theorem malloc_leaves_memory_alone (st : state A) ra size :
  ∃ ret st', malloc st ra size = Returned ret st'
    ∧ (ret = 0 → memory st' = memory st)
    ∧ (ret ≠ 0 →
       (∀ i, 0 ≤ i < size → is_Some (memory st' !! (ret + i)))
       ∧ ∀ y, ¬ (ret ≤ y < ret + size) → memory st' !! y = memory st !! y).
Proof.
  destruct (posix_memalign (allocator st) (memory st) 64 size)
    as [[[p|] a] h] eqn:Hp; rewrite (malloc_unfold _ _ _ _ _ _ Hp);
    eexists _, _; (split; [reflexivity|]); simpl.
  - split.
    + intros ->. by apply memalign_nonnull in Hp.
    + intros _. split; [by eapply memalign_region|by eapply memalign_frame].
  - split; [|done]. intros _. by eapply memalign_failed.
Qed.

(** X11.  [calloc] is [malloc] of the wrapped total followed by zeroing: when
    that [malloc] returns an address, [calloc] returns the same address with
    the same array and allocator, the bytes of the block are 0 and all others
    are as [malloc] leaves them. *)
Theorem calloc_is_malloc_then_zero (st : state A) ra nmemb size p stm :
  malloc st ra (wrap A (size * nmemb)) = Returned p stm → p ≠ 0 →
  ∃ stc, calloc st ra nmemb size = Returned p stc
    ∧ libafl_alloc_map stc = libafl_alloc_map stm
    ∧ allocator stc = allocator stm
    ∧ (∀ i, 0 ≤ i < wrap A (size * nmemb) → memory stc !! (p + i) = Some 0)
    ∧ (∀ y, ¬ (p ≤ y < p + wrap A (size * nmemb)) →
         memory stc !! y = memory stm !! y).
Proof.
  intros Hm Hnz.
  destruct (posix_memalign (allocator st) (memory st) 64 (wrap A (size * nmemb)))
    as [[stored a] h] eqn:Hp.
  rewrite (malloc_unfold _ _ _ _ _ _ Hp) in Hm. injection Hm as Hret <-.
  destruct stored as [q|]; simpl in Hret; [subst q|congruence].
  destruct (calloc_success st ra nmemb size p a h Hp) as (h' & Hrun & Hin & Hout).
  eexists. split; [exact Hrun|]. simpl. done.
Qed.


End AllocExtras.

(** ** Further properties: the Windows build *)

Section Windows.
Context {W : Type} `{Win32 W}.

(** X13.  Under [_WIN32] the hooks hand their byte count and the alignment 64 to
    [_aligned_malloc] in that order and return its pointer, [NULL] included
    ([calloc]: unless [memset] faults on it); what the macro evaluates to,
    0 or [errno], has no effect. *)
Theorem win32_hooks_forward (st : state W) ra nmemb size :
  (∃ stm, @malloc W win32_platform st ra size
          = Returned (_aligned_malloc (allocator st) (memory st) size 64).1.1 stm
          ∧ allocator stm = (_aligned_malloc (allocator st) (memory st) size 64).1.2
          ∧ memory stm = (_aligned_malloc (allocator st) (memory st) size 64).2)
  ∧ (let total := (size * nmemb) `mod` 2 ^ Z.of_N pointer_bits in
     let r := _aligned_malloc (allocator st) (memory st) total 64 in
     result (@calloc W win32_platform st ra nmemb size)
     = match memset r.2 r.1.1 0 total with
       | Some _ => Some r.1.1
       | None => None
       end).
Proof.
  split.
  - unfold malloc. cbn [posix_memalign win32_platform].
    unfold win32_posix_memalign. change (Z.shiftl 1 6) with 64.
    destruct (_aligned_malloc (allocator st) (memory st) size 64)
      as [[p w'] h'].
    eexists. split; [simpl; by destruct (Z.eqb_spec p 0) as [->|]|done].
  - intros total r. subst r. unfold calloc, wrap.
    cbn [posix_memalign size_bits win32_platform].
    unfold win32_posix_memalign. change (Z.shiftl 1 6) with 64. fold total.
    destruct (_aligned_malloc (allocator st) (memory st) total 64)
      as [[p w'] h'].
    assert (Hret : default 0 (if p =? 0 then None else Some p) = p).
    { by destruct (Z.eqb_spec p 0) as [->|]. }
    rewrite Hret. simpl. by destruct (memset h' p 0 total).
Qed.

(** X14.  The macro of line 8 turns an [_aligned_malloc] that keeps its contract
    into a primitive that keeps the contract of [posix_memalign], so all
    that is proved of the hooks holds of the Windows build. *)
Theorem win32_meets_contract :
  Win32Spec W → @PlatformSpec W win32_platform.
Proof.
  intros Hspec.
  split; cbn [posix_memalign win32_platform]; unfold win32_posix_memalign;
    intros w h al sz.
  - intros p w' h'.
    destruct (_aligned_malloc w h sz al) as [[q w2] h2] eqn:Hq.
    destruct (Z.eqb_spec q 0); [done|]. intros [= <- _ _] Hal.
    by eapply aligned_malloc_aligned.
  - intros p w' h'.
    destruct (_aligned_malloc w h sz al) as [[q w2] h2] eqn:Hq.
    destruct (Z.eqb_spec q 0); [done|]. by intros [= <- _ _].
  - intros p w' h'.
    destruct (_aligned_malloc w h sz al) as [[q w2] h2] eqn:Hq.
    destruct (Z.eqb_spec q 0); [done|]. intros [= <- _ <-].
    by eapply aligned_malloc_region.
  - intros p w' h'.
    destruct (_aligned_malloc w h sz al) as [[q w2] h2] eqn:Hq.
    destruct (Z.eqb_spec q 0); [done|]. intros [= <- _ <-].
    by eapply aligned_malloc_frame.
  - intros w' h'.
    destruct (_aligned_malloc w h sz al) as [[q w2] h2] eqn:Hq.
    destruct (Z.eqb_spec q 0) as [->|]; [|done]. intros [= _ <-].
    by eapply aligned_malloc_failed.
Qed.

End Windows.

(** ** The further properties on the arena platform *)

Lemma hash_ignores_width_witness :
  hash arena caller
  = Z.land (Z.lxor (Z.shiftr caller 4) (Z.shiftl caller 8)) 16383.
Proof. apply (hash_ignores_width (A:=arena) caller). vm_compute. congruence. Defined.

Lemma hash_bits_witness :
  Z.testbit (hash arena caller) 9
  = if 9 <? 8 then Z.testbit caller (9 + 4)
    else if 9 <? 14 then xorb (Z.testbit caller (9 + 4)) (Z.testbit caller (9 - 8))
    else false.
Proof.
  apply (hash_bits (A:=arena) caller 9).
  - vm_compute. congruence.
  - lia.
Defined.

Lemma every_slot_reachable_witness :
  ∃ a, 0 ≤ a < 2 ^ 18 ∧ a < 2 ^ Z.of_N (size_bits (A:=arena))
       ∧ hash arena a = 13603.
Proof.
  apply (every_slot_reachable (A:=arena) 13603).
  - vm_compute. congruence.
  - unfold MAP_SIZE. lia.
Defined.

(** Two orders of the same two calls. *)
Lemma map_order_independent_witness :
  libafl_alloc_map (run roomy [Malloc caller 8; Calloc 4096 3 5]).2
  = libafl_alloc_map (run roomy [Calloc 4096 3 5; Malloc caller 8]).2.
Proof.
  apply (map_order_independent roomy roomy).
  - reflexivity.
  - vm_compute. apply perm_swap.
Defined.

(** [malloc(8)] after [malloc(100)] from the same call site. *)
Lemma smaller_request_changes_nothing_witness :
  libafl_alloc_map (final (invoke (final (malloc roomy caller 100))
                             (Malloc caller 8)))
  = libafl_alloc_map (final (malloc roomy caller 100)).
Proof.
  apply (smaller_request_changes_nothing (final (malloc roomy caller 100))
           (Malloc caller 8)).
  vm_compute. congruence.
Defined.

Lemma map_entries_stay_in_range_witness :
  Forall (λ v, 0 ≤ v < 2 ^ Z.of_N (size_bits (A:=arena)))
    (libafl_alloc_map (run roomy [Malloc caller 8; Calloc 4096 (2 ^ 63 + 1) 2]).2).
Proof.
  apply (map_entries_stay_in_range roomy).
  - apply Forall_replicate. vm_compute. split; congruence.
  - apply Forall_cons. split.
    + intros ra size [= <- <-]. vm_compute. split; congruence.
    + apply Forall_cons. split; [intros ra size [=]|apply Forall_nil_2].
Defined.

Lemma slot_value_was_requested_witness :
  ∃ c, c ∈ (run (initial (Arena 0 4096) ∅) [Malloc caller 8; Malloc 4096 7]).1
       ∧ c ∈ [Malloc caller 8; Malloc 4096 7]
       ∧ hash arena (call_site c) = 13603
       ∧ requested arena c
         = libafl_alloc_map
             (run (initial (Arena 0 4096) ∅) [Malloc caller 8; Malloc 4096 7]).2
             !!! Z.to_nat 13603.
Proof.
  apply (slot_value_was_requested (Arena 0 4096) ∅
           [Malloc caller 8; Malloc 4096 7] 13603).
  - unfold MAP_SIZE. lia.
  - vm_compute. congruence.
Defined.

(** [calloc(2^63, 2)] on 64-bit [size_t] is [malloc(0)]. *)
Lemma calloc_zero_total_is_malloc_zero_witness :
  calloc roomy caller (2 ^ 63) 2 = malloc roomy caller 0.
Proof.
  apply (calloc_zero_total_is_malloc_zero roomy caller (2 ^ 63) 2).
  vm_compute. reflexivity.
Defined.

Lemma malloc_leaves_memory_alone_witness :
  ∃ ret st', malloc roomy caller 100 = Returned ret st'
    ∧ (ret = 0 → memory st' = memory roomy)
    ∧ (ret ≠ 0 →
       (∀ i, 0 ≤ i < 100 → is_Some (memory st' !! (ret + i)))
       ∧ ∀ y, ¬ (ret ≤ y < ret + 100) → memory st' !! y = memory roomy !! y).
Proof. exact (malloc_leaves_memory_alone roomy caller 100). Defined.

Lemma calloc_is_malloc_then_zero_witness :
  ∃ stc, calloc roomy caller 10 4 = Returned 4096 stc
    ∧ libafl_alloc_map stc
      = libafl_alloc_map (final (malloc roomy caller (wrap arena (4 * 10))))
    ∧ allocator stc = allocator (final (malloc roomy caller (wrap arena (4 * 10))))
    ∧ (∀ i, 0 ≤ i < wrap arena (4 * 10) → memory stc !! (4096 + i) = Some 0)
    ∧ (∀ y, ¬ (4096 ≤ y < 4096 + wrap arena (4 * 10)) →
         memory stc !! y
         = memory (final (malloc roomy caller (wrap arena (4 * 10)))) !! y).
Proof.
  apply (calloc_is_malloc_then_zero roomy caller 10 4 4096
           (final (malloc roomy caller (wrap arena (4 * 10))))).
  - vm_compute. reflexivity.
  - lia.
Defined.


#[export] Instance win_arena_spec : Win32Spec win_arena.
Proof.
  split; simpl; intros w h sz al.
  - intros p w' h'.
    destruct (arena_memalign (win_heap w) h al sz) as [[[q|] ar] h2] eqn:Hq;
      simpl; intros [= <- _ _] Hal; [|by apply Z.mod_0_l; lia].
    by eapply (memalign_aligned (A:=arena)).
  - intros p w' h'.
    destruct (arena_memalign (win_heap w) h al sz) as [[[q|] ar] h2] eqn:Hq;
      simpl; intros [= <- _ <-] Hnz; [|done].
    by eapply (memalign_region (A:=arena)).
  - intros p w' h'.
    destruct (arena_memalign (win_heap w) h al sz) as [[[q|] ar] h2] eqn:Hq;
      simpl; intros [= <- _ <-] Hnz; [|done].
    by eapply (memalign_frame (A:=arena)).
  - intros w' h'.
    destruct (arena_memalign (win_heap w) h al sz) as [[[q|] ar] h2] eqn:Hq;
      simpl.
    + intros [= Hz _ <-]. subst q.
      destruct (@memalign_nonnull arena arena_platform arena_spec
                  (win_heap w) h al sz 0 ar h2 Hq eq_refl).
    + intros [= _ <-]. by eapply (memalign_failed (A:=arena)).
Qed.

Lemma win32_meets_contract_witness :
  @PlatformSpec win_arena win32_platform.
Proof. exact (win32_meets_contract win_arena_spec). Defined.

(** [malloc(100)] of the Windows build on the arena. *)
Example win32_malloc_evaluated :
  result (@malloc win_arena win32_platform win_roomy caller 100) = Some 4096
  ∧ win32_posix_memalign (WinArena (Arena 0 0)) ∅ 64 100
    = (12, 0, WinArena (Arena 0 0), ∅).
Proof. split; vm_compute; reflexivity. Qed.
